(** * trace_event.py: the import shim of py_trace_event

    The shim tries to import the tracing engine [trace_event_impl].  When
    the import succeeds it re-exports the engine's entry points; when it
    raises [ImportError] it binds a handful of fallback functions instead.
    This file embeds the module: its namespace after import, the Python
    calling convention of its [def] statements, the bodies of the fallback
    functions, and the [contextlib.contextmanager] protocol that the
    fallback [trace] goes through. *)

From Stdlib Require Import ZArith Strings.Byte Ascii.
From stdpp Require Import base strings gmap list.

Open Scope string_scope.
Open Scope list_scope.

(** ** Values, exceptions, results *)

Inductive exn_class :=
| TypeError
| NameError
| AttributeError
| ImportError
| RuntimeError
| StopIteration
| TraceException            (* trace_event_impl.TraceException *)
| AppError (cls : string).  (* any exception class of the application *)

Global Instance exn_class_eq_dec : EqDecision exn_class.
Proof. solve_decision. Defined.

Record exn := Exn { exn_cls : exn_class; exn_msg : string }.

Global Instance exn_eq_dec : EqDecision exn.
Proof. solve_decision. Defined.

(** The function objects that the [def] statements of the shim create. *)
Inductive shim_def :=
| def_trace_can_enable
| def_trace_enable
| def_trace_disable
| def_trace_is_enabled
| def_trace_flush
| def_trace_begin
| def_trace_end
| def_trace
| def_traced.

Global Instance shim_def_eq_dec : EqDecision shim_def.
Proof. solve_decision. Defined.

Inductive value :=
| VNone
| VBool (b : bool)
| VInt (n : Z)
| VStr (s : string)
| VModule (name : string)   (* a module object *)
| VImpl (name : string)     (* the attribute [name] of trace_event_impl *)
| VClass (c : exn_class)    (* an exception class *)
| VExc (e : exn)            (* an exception instance *)
| VDef (d : shim_def)       (* a function defined by the shim *)
| VObj (a : nat)            (* an object of the application, by identity *)
| VGenCtx (g : nat).        (* contextlib's manager around generator [g] *)

Global Instance value_eq_dec : EqDecision value.
Proof. solve_decision. Defined.

Inductive result (A : Type) :=
| Ok (a : A)
| Err (e : exn).
Arguments Ok {A} a.
Arguments Err {A} e.

(** Python truth value of the objects above ([if trace_event_impl:]). *)
Definition truthy (v : value) : bool :=
  match v with
  | VNone => false
  | VBool b => b
  | VInt n => negb (n =? 0)%Z
  | VStr s => negb (bool_decide (s = ""))
  | _ => true
  end.

(** [v is not None] *)
Definition is_not_none (v : value) : bool :=
  match v with VNone => false | _ => true end.

(** ** Binding the arguments of a call

    Every [def] of the shim has positional-or-keyword parameters without
    defaults and at most a [**kwargs] parameter.  A call passes a list of
    positional arguments and a dictionary of keyword arguments. *)

Record signature := Sig {
  sig_name : string;
  sig_params : list string;
  sig_kwargs : option string
}.

Definition in_list (k : string) (l : list string) : bool :=
  bool_decide (k ∈ l).

Definition type_error (msg : string) : exn := Exn TypeError msg.

Definition bind_arguments (sg : signature) (args : list value)
    (kw : gmap string value) : exn + gmap string value * gmap string value :=
  let ps := sig_params sg in
  let by_pos := take (length args) ps in
  let by_key := drop (length args) ps in
  let extra := filter (λ kv, in_list kv.1 ps = false) kw in
  if bool_decide (length ps < length args) then
    inl (type_error (sig_name sg +:+ "() takes too many positional arguments"))
  else if existsb (λ p, bool_decide (is_Some (kw !! p))) by_pos then
    inl (type_error (sig_name sg +:+ "() got multiple values for an argument"))
  else if existsb (λ k, negb (in_list k ps)) (map fst (map_to_list kw))
          && bool_decide (sig_kwargs sg = None) then
    inl (type_error (sig_name sg +:+ "() got an unexpected keyword argument"))
  else if existsb (λ p, bool_decide (kw !! p = None)) by_key then
    inl (type_error (sig_name sg +:+ "() missing a required positional argument"))
  else
    inr (list_to_map (zip by_pos args) ∪ filter (λ kv, in_list kv.1 ps = true) kw,
         extra).

(** ** The module namespace after import (lines 47-104 and 107-205) *)

Abbreviation namespace := (gmap string value).

(** [import trace_event_impl]: the engine is installed or the statement
    raises [ImportError]. *)
Definition import_trace_event_impl (installed : bool) : result value :=
  if installed then Ok (VModule "trace_event_impl")
  else Err (Exn ImportError "No module named trace_event_impl").

(** Lines 47-50: [try: import ... except ImportError: trace_event_impl = None]. *)
Definition try_import (installed : bool) (ns : namespace) : result namespace :=
  match import_trace_event_impl installed with
  | Ok m => Ok (<["trace_event_impl" := m]> ns)
  | Err e =>
      if bool_decide (exn_cls e = ImportError)
      then Ok (<["trace_event_impl" := VNone]> ns)
      else Err e
  end.

(** Lines 63-76: the names taken from the engine. *)
Definition impl_functions : list string :=
  [ "trace_is_enabled"; "trace_enable"; "trace_disable"; "trace_flush";
    "trace_begin"; "trace_end"; "trace"; "traced";
    "trace_async_begin"; "trace_async_instant"; "trace_async_end" ].

Definition from_trace_event_impl_import (ns : namespace) : namespace :=
  foldl (λ m n, <[n := VImpl n]> m)
        (<["TraceException" := VClass TraceException]> ns)
        impl_functions.

(** Lines 79-104: the [def] statements of the [else] branch, in order. *)
Definition fallback_defs : list (string * shim_def) :=
  [ ("trace_enable", def_trace_enable);
    ("trace_disable", def_trace_disable);
    ("trace_is_enabled", def_trace_is_enabled);
    ("trace_flush", def_trace_flush);
    ("trace_begin", def_trace_begin);
    ("trace_end", def_trace_end);
    ("trace", def_trace);
    ("traced", def_traced) ].

Definition define_fallbacks (ns : namespace) : namespace :=
  foldl (λ m nd, <[nd.1 := VDef nd.2]> m)
        (<["contextlib" := VModule "contextlib"]> ns)
        fallback_defs.

(** Lines 107-205: [name.__doc__ = ...] needs [name] to be bound. *)
Definition documented : list string :=
  [ "trace_enable"; "trace_disable"; "trace_flush"; "trace_is_enabled";
    "trace_begin"; "trace_end"; "trace"; "traced" ].

Definition assign_doc (r : result namespace) (name : string) : result namespace :=
  match r with
  | Ok ns =>
      match ns !! name with
      | Some _ => Ok ns
      | None => Err (Exn NameError ("name '" +:+ name +:+ "' is not defined"))
      end
  | Err e => Err e
  end.

(** The module body, top to bottom. *)
Definition module_body (installed : bool) : result namespace :=
  match try_import installed ∅ with
  | Err e => Err e
  | Ok ns0 =>
      let ns1 := <["trace_can_enable" := VDef def_trace_can_enable]> ns0 in
      let ns2 :=
        if truthy (default VNone (ns1 !! "trace_event_impl"))
        then from_trace_event_impl_import (<["time" := VModule "time"]> ns1)
        else define_fallbacks ns1 in
      foldl assign_doc (Ok ns2) documented
  end.

Definition shim_globals (installed : bool) : namespace :=
  match module_body installed with
  | Ok ns => ns
  | Err _ => ∅
  end.

(** Names that resolve in the builtins module when the module namespace
    does not bind them. *)
Definition builtins : namespace :=
  list_to_map
    [ ("None", VNone); ("True", VBool true); ("False", VBool false);
      ("TypeError", VClass TypeError); ("NameError", VClass NameError);
      ("AttributeError", VClass AttributeError);
      ("ImportError", VClass ImportError);
      ("RuntimeError", VClass RuntimeError);
      ("StopIteration", VClass StopIteration) ].

(** ** Signatures of the shim's functions (lines 52, 81-103) *)

Definition signature_of (d : shim_def) : signature :=
  match d with
  | def_trace_can_enable => Sig "trace_can_enable" [] None
  | def_trace_enable => Sig "trace_enable" [] None
  | def_trace_disable => Sig "trace_disable" [] None
  | def_trace_is_enabled => Sig "trace_is_enabled" [] None
  | def_trace_flush => Sig "trace_flush" [] None
  | def_trace_begin => Sig "trace_begin" ["self"; "name"] (Some "kwargs")
  | def_trace_end => Sig "trace_end" ["self"; "name"] None
  | def_trace => Sig "trace" ["name"] (Some "kwargs")
  | def_traced => Sig "traced" ["fn"] None
  end.

(** ** Generators

    The body of the fallback [trace] is the single statement [yield]. *)
Inductive gen_state := GenCreated | GenSuspended | GenFinished.

Global Instance gen_state_eq_dec : EqDecision gen_state.
Proof. solve_decision. Defined.

(** ** The process state and the embedding of the function bodies *)

Section Shim.

(** Everything outside the shim: the application's own state and, when it
    is installed, the engine's. *)
Variable World : Type.

Record state := State {
  globals : namespace;          (* the namespace of module trace_event *)
  gens : list gen_state;        (* the generator objects created so far *)
  world : World
}.

Definition M (A : Type) : Type := state → result A * state.

Definition ret {A} (a : A) : M A := λ st, (Ok a, st).
Definition raise {A} (e : exn) : M A := λ st, (Err e, st).
Definition mbind {A B} (m : M A) (k : A → M B) : M B :=
  λ st, match m st with
        | (Ok a, st') => k a st'
        | (Err e, st') => (Err e, st')
        end.

Notation "'let!' x ':=' m 'in' k" := (mbind m (λ x, k))
  (at level 10, x name, m at level 100, k at level 200).

(** Calling an application object, and calling an attribute of the engine. *)
Variable app_call :
  nat → list value → gmap string value → state → result value * state.
Variable impl_call :
  string → list value → gmap string value → World → result value * World.

Definition in_engine (n : string) (args : list value)
    (kw : gmap string value) : M value :=
  λ st, let '(r, w) := impl_call n args kw (world st) in
        (r, State (globals st) (gens st) w).

(** A global name is looked up in the module namespace, then in builtins. *)
Definition load_global (n : string) : M value :=
  λ st, match globals st !! n with
        | Some v => (Ok v, st)
        | None =>
            match builtins !! n with
            | Some v => (Ok v, st)
            | None => (Err (Exn NameError ("name '" +:+ n +:+ "' is not defined")), st)
            end
        end.

(** [raise v] *)
Definition raise_value (v : value) : M value :=
  match v with
  | VExc e => raise e
  | VClass c => raise (Exn c "")
  | _ => raise (type_error "exceptions must derive from BaseException")
  end.

(** Creating a generator object for the body of [trace]. *)
Definition new_generator : M nat :=
  λ st, (Ok (length (gens st)),
         State (globals st) (gens st ++ [GenCreated]) (world st)).

Definition set_gen (g : nat) (s : gen_state) (st : state) : state :=
  State (globals st) (<[g := s]> (gens st)) (world st).

Section Bodies.

(** The callee of a call expression inside a body. *)
Variable call_value : value → list value → gmap string value → M value.

(** Line 58: [return trace_event_impl is not None] *)
Definition trace_can_enable : M value :=
  let! m := load_global "trace_event_impl" in
  ret (VBool (is_not_none m)).

(** Line 82: [raise TraceException("Cannot enable ...")] *)
Definition trace_enable : M value :=
  let! cls := load_global "TraceException" in
  let! e := call_value cls
        [VStr "Cannot enable trace_event. No trace_event_impl module found."] ∅ in
  raise_value e.

(** Line 85: [pass] *)
Definition trace_disable : M value := ret VNone.

(** Line 88: [return False] *)
Definition trace_is_enabled : M value := ret (VBool false).

(** Line 91: [pass] *)
Definition trace_flush : M value := ret VNone.

(** Line 94: [pass] *)
Definition trace_begin : M value := ret VNone.

(** Line 97: [pass] *)
Definition trace_end : M value := ret VNone.

(** Lines 99-101: calling the decorated [trace] creates the generator of
    the body and wraps it in contextlib's manager. *)
Definition trace : M value :=
  let! g := new_generator in
  ret (VGenCtx g).

(** Line 104: [return fn] *)
Definition traced (locals : gmap string value) : M value :=
  match locals !! "fn" with
  | Some fn => ret fn
  | None => raise (Exn NameError "name 'fn' is not defined")
  end.

Definition body (d : shim_def) (locals : gmap string value) : M value :=
  match d with
  | def_trace_can_enable => trace_can_enable
  | def_trace_enable => trace_enable
  | def_trace_disable => trace_disable
  | def_trace_is_enabled => trace_is_enabled
  | def_trace_flush => trace_flush
  | def_trace_begin => trace_begin
  | def_trace_end => trace_end
  | def_trace => trace
  | def_traced => traced locals
  end.

End Bodies.

(** Calling a class builds an instance carrying the message. *)
Definition instantiate (c : exn_class) (args : list value) : value :=
  match args with
  | [VStr msg] => VExc (Exn c msg)
  | _ => VExc (Exn c "")
  end.

(** Calling [f] on positional arguments [args] and keyword arguments [kw],
    with [depth] frames left before the interpreter's recursion limit. *)
Fixpoint call (depth : nat) (f : value) (args : list value)
    (kw : gmap string value) : M value :=
  match depth with
  | 0 => raise (Exn RuntimeError "maximum recursion depth exceeded")
  | S depth' =>
      match f with
      | VDef d =>
          match bind_arguments (signature_of d) args kw with
          | inl e => raise e
          | inr (locals, _) => body (call depth') d locals
          end
      | VClass c => ret (instantiate c args)
      | VImpl n => in_engine n args kw
      | VObj a => app_call a args kw
      | _ => raise (type_error "object is not callable")
      end
  end.

(** Calling the attribute [name] of module trace_event from outside. *)
Definition getattr_module (name : string) : M value :=
  λ st, match globals st !! name with
        | Some v => (Ok v, st)
        | None =>
            (Err (Exn AttributeError
                      ("module 'trace_event' has no attribute '" +:+ name +:+ "'")),
             st)
        end.

Definition call_entry (depth : nat) (name : string) (args : list value)
    (kw : gmap string value) : M value :=
  let! f := getattr_module name in
  call depth f args kw.

(** ** contextlib.contextmanager and the [with] statement

    [gen.next()] and [gen.throw(exc)] for the generator of [trace], whose
    body has no statement before or after its only [yield] and no handler
    around it. *)
Definition gen_next (g : nat) : M value :=
  λ st, match gens st !! g with
        | Some GenCreated => (Ok VNone, set_gen g GenSuspended st)
        | Some GenSuspended =>
            (Err (Exn StopIteration ""), set_gen g GenFinished st)
        | Some GenFinished => (Err (Exn StopIteration ""), st)
        | None => (Err (Exn RuntimeError "no such generator"), st)
        end.

Definition gen_throw (g : nat) (e : exn) : M value :=
  λ st, match gens st !! g with
        | Some _ => (Err e, set_gen g GenFinished st)
        | None => (Err (Exn RuntimeError "no such generator"), st)
        end.

(** [GeneratorContextManager.__enter__] *)
Definition ctx_enter (g : nat) : M value :=
  λ st, match gen_next g st with
        | (Ok v, st') => (Ok v, st')
        | (Err e, st') =>
            if bool_decide (exn_cls e = StopIteration)
            then (Err (Exn RuntimeError "generator didn't yield"), st')
            else (Err e, st')
        end.

(** [GeneratorContextManager.__exit__]: [exc] is the exception that left
    the block, if any; the result says whether to swallow it.  Object
    identity of exceptions ([is not]) is equality of the [exn] passed
    through. *)
Definition ctx_exit (g : nat) (exc : option exn) : M value :=
  match exc with
  | None =>
      λ st, match gen_next g st with
            | (Ok _, st') => (Err (Exn RuntimeError "generator didn't stop"), st')
            | (Err e, st') =>
                if bool_decide (exn_cls e = StopIteration)
                then (Ok VNone, st')
                else (Err e, st')
            end
  | Some value =>
      λ st, match gen_throw g value st with
            | (Ok _, st') =>
                (Err (Exn RuntimeError "generator didn't stop after throw()"), st')
            | (Err e, st') =>
                if bool_decide (exn_cls e = StopIteration)
                then (Ok (VBool (bool_decide (e ≠ value))), st')
                else if bool_decide (e ≠ value) then (Err e, st')
                else (Ok VNone, st')
            end
  end.

(** [with EXPR: BLOCK].  The manager's [__exit__] runs on both ways out of
    the block; a true result swallows the block's exception. *)
Definition with_stmt (expr : M value) (block : M value) : M value :=
  let! mgr := expr in
  match mgr with
  | VGenCtx g =>
      let! _ := ctx_enter g in
      λ st, match block st with
            | (Ok v, st') => (let! _ := ctx_exit g None in ret v) st'
            | (Err e, st') =>
                (let! swallow := ctx_exit g (Some e) in
                 if truthy swallow then ret VNone else raise e) st'
            end
  | _ => raise (Exn AttributeError "__exit__")
  end.

(** ** Sequences of calls made by the application *)

Record op := Op {
  op_name : string;
  op_args : list value;
  op_kw : gmap string value
}.

(** The caller goes on after an operation whatever its outcome. *)
Definition run_ops (depth : nat) (ops : list op) (st : state) : state :=
  foldl (λ s o, (call_entry depth (op_name o) (op_args o) (op_kw o) s).2) st ops.

(** The state right after [import trace_event]. *)
Definition imported (installed : bool) (gs : list gen_state) (w : World) : state :=
  State (shim_globals installed) gs w.

End Shim.

Arguments State {World} globals gens world.
Arguments globals {World} s.
Arguments gens {World} s.
Arguments world {World} s.
Arguments ret {World A} a.
Arguments raise {World A} e.
Arguments mbind {World A B} m k.
Arguments set_gen {World} g s st.
Arguments gen_next {World} g.
Arguments gen_throw {World} g e.
Arguments ctx_enter {World} g.
Arguments ctx_exit {World} g exc.
Arguments with_stmt {World} expr block.
Arguments load_global {World} n.
Arguments getattr_module {World} name.
Arguments call {World} app_call impl_call depth f args kw.
Arguments call_entry {World} app_call impl_call depth name args kw.
Arguments run_ops {World} app_call impl_call depth ops st.
Arguments imported {World} installed gs w.

(** ** The engine's buffer and its file writer

    The engine itself ([trace_event_impl]) is not among the sources of the
    shim.  What the multiprocess note of the module docstring (lines 40-44)
    relies on is modelled here from the specification. *)

(** Modelled from the spec: the phase of an EventRecord (section 3); the
    engine that defines it is missing from the sources. *)
Inductive phase :=
| PhBegin | PhEnd | PhInstant | PhAsyncBegin | PhAsyncInstant | PhAsyncEnd.

(** Modelled from the spec: the scalar values an argument may carry
    (section 9, explicit mapping of string keys to scalars); the engine is
    missing from the sources. *)
Inductive scalar :=
| SNone
| SBool (b : bool)
| SInt (n : Z)
| SStr (s : string).

(** Modelled from the spec: EventRecord (section 3); the engine is missing
    from the sources.  The timestamp is carried as an integer number of
    clock ticks; nothing below does arithmetic on it. *)
Record EventRecord := {
  er_name : string;
  er_phase : phase;
  er_timestamp : Z;
  er_thread_id : Z;
  er_process_id : Z;
  er_args : list (string * scalar)
}.

(** The two processes that share the destination. *)
Inductive proc := Parent | Child.

Global Instance proc_eq_dec : EqDecision proc.
Proof. solve_decision. Defined.

(** Modelled from the spec: where a process stands in [flush()] (sections
    4.1, 4.4, 4.5): outside it, with a drained and serialized batch waiting
    for the file lock, or inside the locked write with the bytes left to
    append.  The engine is missing from the sources. *)
Inductive flush_pc :=
| Idle
| Drained (bytes : list byte)
| Writing (bytes : list byte).

(** Modelled from the spec: the per-process TraceBuffer (section 4.4) next
    to the flush in progress; the engine is missing from the sources. *)
Record process := Process {
  buffer : list EventRecord;
  pc : flush_pc
}.

(** Modelled from the spec: the destination file and its lock are the only
    state the processes share (section 5); the engine is missing from the
    sources. *)
Record system := System {
  file : list byte;
  lock : option proc;
  parent : process;
  child : process
}.

Definition get_proc (p : proc) (s : system) : process :=
  match p with Parent => parent s | Child => child s end.

Definition set_proc (p : proc) (x : process) (s : system) : system :=
  match p with
  | Parent => System (file s) (lock s) x (child s)
  | Child => System (file s) (lock s) (parent s) x
  end.

(** What a scheduler can pick next. *)
Inductive action :=
| Emit (p : proc) (r : EventRecord)  (* TraceBuffer.append *)
| Drain (p : proc)                   (* flush: TraceBuffer.drain and serialize *)
| Lock (p : proc)                    (* write: take the exclusive file lock *)
| WriteByte (p : proc)               (* write: append the next byte *)
| Unlock (p : proc).                 (* write: release the lock *)

Section FileWriter.

(** The shared log format of section 6, one record at a time. *)
Variable serialize : EventRecord → list byte.

Definition serialize_batch (rs : list EventRecord) : list byte :=
  flat_map serialize rs.

(** Modelled from the spec: one atomic step of one process (sections 4.4,
    4.5 and 5): append to the buffer, drain it, and write the batch byte by
    byte to the end of the file between taking and releasing the lock.
    [None] when the process cannot take that step now.  The engine is
    missing from the sources. *)
Definition step (a : action) (s : system) : option system :=
  match a with
  | Emit p r =>
      let x := get_proc p s in
      Some (set_proc p (Process (buffer x ++ [r]) (pc x)) s)
  | Drain p =>
      let x := get_proc p s in
      match pc x with
      | Idle => Some (set_proc p (Process [] (Drained (serialize_batch (buffer x)))) s)
      | _ => None
      end
  | Lock p =>
      let x := get_proc p s in
      match pc x, lock s with
      | Drained bs, None =>
          Some (set_proc p (Process (buffer x) (Writing bs))
                  (System (file s) (Some p) (parent s) (child s)))
      | _, _ => None
      end
  | WriteByte p =>
      let x := get_proc p s in
      match pc x with
      | Writing (b :: bs) =>
          Some (set_proc p (Process (buffer x) (Writing bs))
                  (System (file s ++ [b]) (lock s) (parent s) (child s)))
      | _ => None
      end
  | Unlock p =>
      let x := get_proc p s in
      match pc x with
      | Writing [] =>
          Some (set_proc p (Process (buffer x) Idle)
                  (System (file s) None (parent s) (child s)))
      | _ => None
      end
  end.

Fixpoint run (acts : list action) (s : system) : option system :=
  match acts with
  | [] => Some s
  | a :: rest =>
      match step a s with
      | Some s' => run rest s'
      | None => None
      end
  end.

End FileWriter.

(** Both processes start with an empty buffer on an empty destination. *)
Definition initial : system :=
  System [] None (Process [] Idle) (Process [] Idle).

(** Both processes have flushed: nothing buffered, no flush in progress. *)
Definition flushed (s : system) : Prop :=
  parent s = Process [] Idle ∧ child s = Process [] Idle.

(** The records process [p] emits along a schedule. *)
Fixpoint emitted (p : proc) (acts : list action) : list EventRecord :=
  match acts with
  | [] => []
  | Emit q r :: rest =>
      if bool_decide (q = p) then r :: emitted p rest else emitted p rest
  | _ :: rest => emitted p rest
  end.

(** [l] interleaves [l1] and [l2], keeping the order of each. *)
Inductive interleave {A : Type} : list A → list A → list A → Prop :=
| interleave_nil : interleave [] [] []
| interleave_left x l1 l2 l :
    interleave l1 l2 l → interleave (x :: l1) l2 (x :: l)
| interleave_right x l1 l2 l :
    interleave l1 l2 l → interleave l1 (x :: l2) (x :: l).

(** A format in which no record's bytes can be read as another record
    followed or preceded by something else. *)
Definition self_delimiting {A : Type} (enc : A → list byte) : Prop :=
  ∀ a b s t, enc a ++ s = enc b ++ t → a = b ∧ s = t.

(** ** What holds between the steps of two flushing processes

    [em] are the records process [p] has emitted so far: [done] have been
    claimed for the file under the lock, [queued] are drained and wait for
    the lock, the rest is still in the buffer.  A process holds the lock
    exactly while it is in its locked write. *)
Definition proc_inv (serialize : EventRecord → list byte) (p : proc)
    (s : system) (em done queued : list EventRecord) : Prop :=
  em = done ++ queued ++ buffer (get_proc p s)
  ∧ match pc (get_proc p s) with
    | Idle => queued = [] ∧ lock s ≠ Some p
    | Drained bs => bs = serialize_batch serialize queued ∧ lock s ≠ Some p
    | Writing bs => queued = [] ∧ lock s = Some p
    end.

(** The file and what the lock holder has left to write make up the
    serialization of the records claimed so far, in order. *)
Definition file_inv (serialize : EventRecord → list byte) (s : system)
    (log : list EventRecord) : Prop :=
  match lock s with
  | None => file s = serialize_batch serialize log
  | Some p =>
      ∃ bs, pc (get_proc p s) = Writing bs
            ∧ file s ++ bs = serialize_batch serialize log
  end.

Definition invariant (serialize : EventRecord → list byte) (s : system)
    (e1 e2 : list EventRecord) : Prop :=
  ∃ log d1 q1 d2 q2,
    interleave d1 d2 log
    ∧ proc_inv serialize Parent s e1 d1 q1
    ∧ proc_inv serialize Child s e2 d2 q2
    ∧ file_inv serialize s log.

(** ** A tagged binary log format

    One format that is append-friendly in the sense of section 6: every
    field ends where its own bytes say so. *)

Fixpoint wire_positive (p : positive) : list byte :=
  match p with
  | xH => [x02]
  | xO q => x00 :: wire_positive q
  | xI q => x01 :: wire_positive q
  end.

Definition wire_Z (z : Z) : list byte :=
  match z with
  | Z0 => [x00]
  | Zpos p => x01 :: wire_positive p
  | Zneg p => x02 :: wire_positive p
  end.

Fixpoint wire_string (s : string) : list byte :=
  match s with
  | EmptyString => [x00]
  | String c rest => x01 :: byte_of_ascii c :: wire_string rest
  end.

Definition wire_phase (ph : phase) : list byte :=
  match ph with
  | PhBegin => [x00]
  | PhEnd => [x01]
  | PhInstant => [x02]
  | PhAsyncBegin => [x03]
  | PhAsyncInstant => [x04]
  | PhAsyncEnd => [x05]
  end.

Definition wire_scalar (v : scalar) : list byte :=
  match v with
  | SNone => [x00]
  | SBool false => [x01]
  | SBool true => [x02]
  | SInt n => x03 :: wire_Z n
  | SStr s => x04 :: wire_string s
  end.

Fixpoint wire_args (l : list (string * scalar)) : list byte :=
  match l with
  | [] => [x00]
  | (k, v) :: rest => x01 :: wire_string k ++ wire_scalar v ++ wire_args rest
  end.

Definition wire_record (r : EventRecord) : list byte :=
  wire_string (er_name r) ++ wire_phase (er_phase r)
    ++ wire_Z (er_timestamp r) ++ wire_Z (er_thread_id r)
    ++ wire_Z (er_process_id r) ++ wire_args (er_args r).

(** ** A small application to run the shim against *)

(** Object 0 counts its calls in the world and returns the count before
    the call; every other object raises. *)
Definition counter_app (a : nat) (args : list value) (kw : gmap string value)
    (st : state nat) : result value * state nat :=
  match a with
  | 0 => (Ok (VInt (Z.of_nat (world st))),
          State (globals st) (gens st) (S (world st)))
  | _ => (Err (Exn (AppError "ValueError") "no such object"), st)
  end.

(** An engine whose entry points all return [None]. *)
Definition quiet_engine (n : string) (args : list value)
    (kw : gmap string value) (w : nat) : result value * nat :=
  (Ok VNone, w).

Definition work_begin : EventRecord :=
  {| er_name := "work"; er_phase := PhBegin; er_timestamp := 10;
     er_thread_id := 1; er_process_id := 100; er_args := [("n", SInt 3)] |}.

Definition work_end : EventRecord :=
  {| er_name := "work"; er_phase := PhEnd; er_timestamp := 25;
     er_thread_id := 1; er_process_id := 101; er_args := [] |}.

(** A schedule in which the child drains first, the parent takes the lock
    first, and the child emits and waits while the parent writes. *)
Definition sample_schedule : list action :=
  [ Emit Parent work_begin; Emit Child work_end; Drain Child; Drain Parent;
    Lock Parent ]
  ++ replicate (length (wire_record work_begin)) (WriteByte Parent)
  ++ [ Unlock Parent; Lock Child ]
  ++ replicate (length (wire_record work_end)) (WriteByte Child)
  ++ [ Unlock Child ].

(** No name of the module is bound to an object of the application, and
    [TraceException], where bound, is bound to a class. *)
Definition shim_object (v : value) : bool :=
  match v with VObj _ => false | _ => true end.

Definition closed_namespace (ns : gmap string value) : Prop :=
  (∀ n v, ns !! n = Some v → shim_object v = true)
  ∧ (∀ v, ns !! "TraceException" = Some v → ∃ c, v = VClass c).

(** ** The import statement with any outcome

    Lines 47-50 for whatever [import trace_event_impl] does: it gives the
    module object or raises an exception of any class.  The [except]
    clause compares classes by name; the model has no subclasses. *)
Definition try_import_outcome (outcome : result value) (ns : namespace)
    : result namespace :=
  match outcome with
  | Ok m => Ok (<["trace_event_impl" := m]> ns)
  | Err e =>
      if bool_decide (exn_cls e = ImportError)
      then Ok (<["trace_event_impl" := VNone]> ns)
      else Err e
  end.

(** The module body of [module_body] on that outcome. *)
Definition module_body_outcome (outcome : result value) : result namespace :=
  match try_import_outcome outcome ∅ with
  | Err e => Err e
  | Ok ns0 =>
      let ns1 := <["trace_can_enable" := VDef def_trace_can_enable]> ns0 in
      let ns2 :=
        if truthy (default VNone (ns1 !! "trace_event_impl"))
        then from_trace_event_impl_import (<["time" := VModule "time"]> ns1)
        else define_fallbacks ns1 in
      foldl assign_doc (Ok ns2) documented
  end.

(** ** More forms of use *)

(** The number of parameters a [def] of the shim declares. *)
Definition arity (d : shim_def) : nat := length (sig_params (signature_of d)).

(** [with EXPR as VAR: BLOCK]: the block sees what [__enter__] returned. *)
Definition with_as_stmt {World} (expr : M World value)
    (block : value → M World value) : M World value :=
  mbind expr (λ mgr,
    match mgr with
    | VGenCtx g =>
        mbind (ctx_enter g) (λ var st,
          match block var st with
          | (Ok v, st') => mbind (ctx_exit g None) (λ _, ret v) st'
          | (Err e, st') =>
              mbind (ctx_exit g (Some e))
                    (λ swallow, if truthy swallow then ret VNone else raise e) st'
          end)
    | _ => raise (Exn AttributeError "__exit__")
    end).

(** [with trace(n1): with trace(n2): ... BLOCK], one scope per name. *)
Fixpoint nested_trace {World}
    (app_call : nat → list value → gmap string value → state World
                → result value * state World)
    (impl_call : string → list value → gmap string value → World
                 → result value * World)
    (depth : nat) (names : list value) (block : M World value)
    : M World value :=
  match names with
  | [] => block
  | n :: rest =>
      with_stmt (call_entry app_call impl_call depth "trace" [n] ∅)
                (nested_trace app_call impl_call depth rest block)
  end.

(** [traced] applied [n] times over: [n] stacked [@traced] lines. *)
Fixpoint decorate {World}
    (app_call : nat → list value → gmap string value → state World
                → result value * state World)
    (impl_call : string → list value → gmap string value → World
                 → result value * World)
    (depth n : nat) (fn : value) : M World value :=
  match n with
  | 0 => ret fn
  | S k =>
      mbind (decorate app_call impl_call depth k fn)
            (λ f, call_entry app_call impl_call depth "traced" [f] ∅)
  end.

(** What is left of a state once every generator from index [from] on, of
    [n] of them, has finished. *)
Definition finish_generators {World} (from n : nat) (st : state World)
    : state World :=
  foldr (λ i s, set_gen (from + i) GenFinished s) st (seq 0 n).


(** * Properties of the shim *)

(** ** The namespace the import leaves behind *)


Lemma fallback_bindings (n : string) (d : shim_def) :
  (n, d) ∈ fallback_defs → shim_globals false !! n = Some (VDef d).
Proof.
  unfold fallback_defs. rewrite !elem_of_cons, elem_of_nil.
  intros H; repeat destruct H as [H|H]; try done;
    injection H as -> ->; vm_compute; reflexivity.
Qed.

Lemma fallback_no_TraceException :
  shim_globals false !! "TraceException" = None
  ∧ builtins !! "TraceException" = None.
Proof. split; vm_compute; reflexivity. Qed.

Lemma shim_globals_closed (installed : bool) :
  closed_namespace (shim_globals installed).
Proof.
  split.
  - intros n v H. apply elem_of_map_to_list in H.
    assert (forallb (λ kv : string * value, shim_object kv.2)
              (map_to_list (shim_globals installed)) = true) as Hall
      by (destruct installed; vm_compute; reflexivity).
    rewrite forallb_forall in Hall.
    apply (Hall (n, v)). by apply list_elem_of_In.
  - destruct installed; vm_compute; intros v [= <-]; eauto.
Qed.

(** ** Keyword arguments and [bind_arguments] *)

Lemma existsb_ext_in {A} (f g : A → bool) (l : list A) :
  (∀ x, x ∈ l → f x = g x) → existsb f l = existsb g l.
Proof.
  induction l as [|a l IH]; intros H; [reflexivity|]. cbn.
  rewrite (H a) by left. rewrite IH; [reflexivity|].
  intros x Hx. apply H. by right.
Qed.

(** A function with a [**kwargs] parameter that accepts a call accepts it
    with more keywords, as long as they do not name its parameters. *)
Lemma bind_arguments_more_keywords sg args kw extra r :
  sig_kwargs sg ≠ None →
  (∀ p, p ∈ sig_params sg → extra !! p = None) →
  bind_arguments sg args kw = inr r →
  ∃ r', bind_arguments sg args (extra ∪ kw) = inr r'.
Proof.
  intros Hkw Hextra. unfold bind_arguments.
  assert (bool_decide (sig_kwargs sg = None) = false) as ->
    by (by apply bool_decide_eq_false).
  rewrite !andb_false_r.
  destruct (bool_decide (length (sig_params sg) < length args)); [done|].
  rewrite (existsb_ext_in
             (λ p, bool_decide (is_Some ((extra ∪ kw) !! p)))
             (λ p, bool_decide (is_Some (kw !! p)))).
  2:{ intros p Hp. rewrite lookup_union_r; [done|].
      apply Hextra. by apply (subseteq_take (length args)). }
  destruct (existsb _ (take _ _)); [done|].
  rewrite (existsb_ext_in
             (λ p, bool_decide ((extra ∪ kw) !! p = None))
             (λ p, bool_decide (kw !! p = None))).
  2:{ intros p Hp. rewrite lookup_union_r; [done|].
      apply Hextra. by apply (subseteq_drop (length args)). }
  destruct (existsb _ (drop _ _)); [done|]. eauto.
Qed.

(** A function without [**kwargs] rejects every keyword that is not one
    of its parameters. *)
Lemma bind_arguments_unexpected_keyword sg args kw k v :
  sig_kwargs sg = None →
  kw !! k = Some v →
  k ∉ sig_params sg →
  ∃ msg, bind_arguments sg args kw = inl (type_error msg).
Proof.
  intros Hkw Hk Hnot. unfold bind_arguments.
  destruct (bool_decide (length (sig_params sg) < length args)); [eauto|].
  destruct (existsb _ (take _ _)); [eauto|].
  assert (existsb (λ k0, negb (in_list k0 (sig_params sg)))
            (map fst (map_to_list kw)) = true) as ->.
  { apply existsb_exists. exists k. split.
    - apply in_map_iff. exists (k, v). split; [done|].
      apply list_elem_of_In. by apply elem_of_map_to_list.
    - unfold in_list. by rewrite bool_decide_eq_false_2. }
  rewrite Hkw. cbn. eauto.
Qed.

Section ShimFacts.

Variable World : Type.
Variable app_call :
  nat → list value → gmap string value → state World → result value * state World.
Variable impl_call :
  string → list value → gmap string value → World → result value * World.

Local Abbreviation pycall := (call app_call impl_call).
Local Abbreviation entry := (call_entry app_call impl_call).
Local Abbreviation run_calls := (run_ops app_call impl_call).

Lemma entry_bound depth n v args kw (st : state World) :
  globals st !! n = Some v →
  entry depth n args kw st = pycall depth v args kw st.
Proof.
  intros H. unfold call_entry, mbind, getattr_module. by rewrite H.
Qed.

Lemma entry_unbound depth n args kw (st : state World) :
  globals st !! n = None →
  ∃ msg, entry depth n args kw st = (Err (Exn AttributeError msg), st).
Proof.
  intros H. unfold call_entry, mbind, getattr_module. rewrite H. eauto.
Qed.

(** Resolving an entry point of the fallback namespace. *)
Ltac fallback_entry d :=
  rewrite (entry_bound _ _ (VDef d)) by (vm_compute; reflexivity);
  cbn [call].

(** C1, at the failing calls: with the engine missing, [trace_begin(name)]
    and [trace_end(name)] each raise [TypeError], because both fallbacks
    declare a parameter [self] before [name]. *)
Theorem fallback_begin_end_need_two_arguments :
  ∀ depth (name : value) gs (w : World),
    let st := imported false gs w in
    (∃ msg, entry (S depth) "trace_begin" [name] ∅ st
            = (Err (Exn TypeError msg), st))
    ∧ (∃ msg, entry (S depth) "trace_end" [name] ∅ st
              = (Err (Exn TypeError msg), st)).
Proof.
  intros depth name gs w st. split.
  - fallback_entry def_trace_begin. eexists. vm_compute. reflexivity.
  - fallback_entry def_trace_end. eexists. vm_compute. reflexivity.
Qed.

(** C2, at the failing calls: with the engine missing, [trace_enable()]
    raises [NameError], since the fallback namespace never binds
    [TraceException], and [trace_enable(destination)] raises [TypeError],
    since the fallback takes no parameter.  Neither is a TraceException. *)
Theorem fallback_trace_enable_raises_other_errors :
  ∀ depth gs (w : World),
    let st := imported false gs w in
    (∃ msg, entry (S depth) "trace_enable" [] ∅ st
            = (Err (Exn NameError msg), st))
    ∧ (∀ destination, ∃ msg,
          entry (S depth) "trace_enable" [destination] ∅ st
          = (Err (Exn TypeError msg), st)).
Proof.
  intros depth gs w st. split.
  - fallback_entry def_trace_enable. eexists. vm_compute. reflexivity.
  - intros destination. fallback_entry def_trace_enable.
    eexists. vm_compute. reflexivity.
Qed.

(** C9: with the engine missing, [traced(fn)] returns [fn] itself, the
    same object and not a wrapper around it, and touches nothing. *)
Theorem fallback_traced_is_identity :
  ∀ depth (fn : value) gs (w : World),
    let st := imported false gs w in
    entry (S depth) "traced" [fn] ∅ st = (Ok fn, st).
Proof.
  intros depth fn gs w st. fallback_entry def_traced. reflexivity.
Qed.

(** C6, at the failing call: with the engine missing, [traced(s)] for a
    string [s] returns the string, and applying that to a function raises
    [TypeError]: the parameterized form is no wrapping combinator. *)
Theorem fallback_traced_with_name_is_not_callable :
  ∀ depth (s : string) gs (w : World),
    let st := imported false gs w in
    entry (S depth) "traced" [VStr s] ∅ st = (Ok (VStr s), st)
    ∧ (∀ d (fn : value) (st' : state World), ∃ msg,
          pycall (S d) (VStr s) [fn] ∅ st' = (Err (Exn TypeError msg), st')).
Proof.
  intros depth s gs w st. split.
  - fallback_entry def_traced. reflexivity.
  - intros d fn st'. eexists. reflexivity.
Qed.

(** ** Calls through the module leave its namespace alone *)

Lemma pycall_globals depth f args kw (st : state World) :
  shim_object f = true →
  closed_namespace (globals st) →
  globals (pycall depth f args kw st).2 = globals st.
Proof.
  intros Hf [_ Hexc]. destruct depth as [|depth]; [reflexivity|].
  destruct f; try reflexivity; try discriminate; cbn [call].
  - unfold in_engine. by destruct (impl_call _ _ _ _).
  - destruct (bind_arguments _ _ _) as [e|[locals extra]]; [reflexivity|].
    destruct d; try reflexivity; cbn [body].
    + unfold trace_can_enable, mbind, load_global.
      destruct (globals st !! "trace_event_impl"); reflexivity.
    + unfold trace_enable, mbind, load_global.
      destruct (globals st !! "TraceException") as [v|] eqn:Hv.
      * destruct (Hexc v eq_refl) as [c ->].
        destruct depth; reflexivity.
      * reflexivity.
    + unfold traced. by destruct (locals !! "fn").
Qed.

Lemma entry_globals depth n args kw (st : state World) :
  closed_namespace (globals st) →
  globals (entry depth n args kw st).2 = globals st.
Proof.
  intros Hc. destruct (globals st !! n) as [v|] eqn:Hn.
  - rewrite (entry_bound _ _ v) by done.
    apply pycall_globals; [|done]. by apply (proj1 Hc n).
  - by destruct (entry_unbound depth n args kw st Hn) as [msg ->].
Qed.

Lemma run_calls_globals depth ops (st : state World) :
  closed_namespace (globals st) →
  globals (run_calls depth ops st) = globals st.
Proof.
  revert st. induction ops as [|o ops IH]; intros st Hc; [reflexivity|].
  cbn [run_ops foldl].
  change (globals (run_calls depth ops
            (entry depth (op_name o) (op_args o) (op_kw o) st).2) = globals st).
  pose proof (entry_globals depth (op_name o) (op_args o) (op_kw o) st Hc) as Hg.
  rewrite IH; rewrite Hg; done.
Qed.

(** [trace_can_enable()] reads the binding of [trace_event_impl]. *)
Lemma trace_can_enable_reads_namespace depth (st : state World) installed :
  globals st = shim_globals installed →
  entry (S depth) "trace_can_enable" [] ∅ st = (Ok (VBool installed), st).
Proof.
  intros Hg.
  rewrite (entry_bound _ _ (VDef def_trace_can_enable))
    by (rewrite Hg; destruct installed; vm_compute; reflexivity).
  cbn [call]. 
  change (bind_arguments (signature_of def_trace_can_enable) [] ∅)
    with (@inr exn _ (∅ : gmap string value, ∅ : gmap string value)).
  cbn [body]. unfold trace_can_enable, mbind, load_global.
  rewrite Hg. destruct installed; vm_compute; reflexivity.
Qed.

Lemma imported_eta (st : state World) installed :
  globals st = shim_globals installed →
  st = imported installed (gens st) (world st).
Proof. destruct st; cbn; by intros ->. Qed.

Lemma run_calls_imported depth ops installed gs (w : World) :
  ∃ gs' w', run_calls depth ops (imported installed gs w) = imported installed gs' w'.
Proof.
  eexists _, _. apply imported_eta.
  rewrite run_calls_globals; [reflexivity|]. apply shim_globals_closed.
Qed.

(** C10: the answer of [trace_can_enable()] is the outcome of the import:
    whatever calls into the module are made before it and between two
    calls of it, it returns the same boolean, changes nothing, and the
    binding of [trace_event_impl] it reads stays as the import left it. *)
Theorem trace_can_enable_fixed_at_import :
  ∀ installed depth d1 d2 (before between : list op) gs (w : World),
    let st1 := run_calls depth before (imported installed gs w) in
    let st2 := run_calls depth between st1 in
    entry (S d1) "trace_can_enable" [] ∅ st1 = (Ok (VBool installed), st1)
    ∧ entry (S d2) "trace_can_enable" [] ∅ st2 = (Ok (VBool installed), st2)
    ∧ globals st2 !! "trace_event_impl"
      = shim_globals installed !! "trace_event_impl".
Proof.
  intros installed depth d1 d2 before between gs w st1 st2.
  destruct (run_calls_imported depth before installed gs w) as (gs1 & w1 & H1).
  fold st1 in H1.
  assert (∃ gs2 w2, st2 = imported installed gs2 w2) as (gs2 & w2 & H2).
  { unfold st2. rewrite H1. apply run_calls_imported. }
  rewrite H1, H2. split_and!.
  - by apply trace_can_enable_reads_namespace.
  - by apply trace_can_enable_reads_namespace.
  - reflexivity.
Qed.

(** C5: with the engine missing, [trace_disable()] and [trace_flush()]
    return [None] and leave the state as it is, however often and in
    whatever order they are called, and [trace_is_enabled()] returns
    [False], right after the import and after any calls into the module. *)
Theorem fallback_disable_flush_is_enabled :
  ∀ depth (which : list bool) (ops : list op) gs (w : World),
    let st := imported false gs w in
    let disable_or_flush (b : bool) :=
      Op (if b then "trace_disable" else "trace_flush") [] ∅ in
    entry (S depth) "trace_disable" [] ∅ st = (Ok VNone, st)
    ∧ entry (S depth) "trace_flush" [] ∅ st = (Ok VNone, st)
    ∧ run_calls (S depth) (map disable_or_flush which) st = st
    ∧ entry (S depth) "trace_is_enabled" [] ∅ st = (Ok (VBool false), st)
    ∧ (let st' := run_calls (S depth) ops st in
       entry (S depth) "trace_is_enabled" [] ∅ st' = (Ok (VBool false), st')).
Proof.
  intros depth which ops gs w st disable_or_flush.
  assert (∀ gs' w', entry (S depth) "trace_disable" [] ∅ (imported false gs' w')
                    = (Ok VNone, imported false gs' w')) as Hd
    by (intros; fallback_entry def_trace_disable; reflexivity).
  assert (∀ gs' w', entry (S depth) "trace_flush" [] ∅ (imported false gs' w')
                    = (Ok VNone, imported false gs' w')) as Hf
    by (intros; fallback_entry def_trace_flush; reflexivity).
  assert (∀ gs' w', entry (S depth) "trace_is_enabled" [] ∅ (imported false gs' w')
                    = (Ok (VBool false), imported false gs' w')) as He
    by (intros; fallback_entry def_trace_is_enabled; reflexivity).
  split_and!; try done.
  - subst st disable_or_flush.
    induction which as [|b which IH]; [reflexivity|].
    cbn [map run_ops foldl op_name op_args op_kw].
    destruct b; [rewrite Hd | rewrite Hf]; exact IH.
  - intros st'.
    destruct (run_calls_imported (S depth) ops false gs w) as (gs' & w' & H).
    fold st in H. fold st' in H. rewrite H. apply He.
Qed.

(** C4, with the entry points the fallback misses: [trace_can_enable()]
    returns whether the import of the engine succeeded, and after a failed
    import the eight names defined by the [else] branch are bound to those
    definitions; but the three asynchronous entry points, which the engine
    branch binds, are bound to nothing, and calling them raises
    [AttributeError]. *)
Theorem fallback_misses_async_entry_points :
  (∀ installed depth gs (w : World),
      entry (S depth) "trace_can_enable" [] ∅ (imported installed gs w)
      = (Ok (VBool installed), imported installed gs w))
  ∧ Forall (λ nd : string * shim_def,
              shim_globals false !! nd.1 = Some (VDef nd.2)) fallback_defs
  ∧ Forall (λ n : string,
              shim_globals true !! n = Some (VImpl n)
              ∧ shim_globals false !! n = None
              ∧ ∀ depth args kw gs (w : World), ∃ msg,
                  entry depth n args kw (imported false gs w)
                  = (Err (Exn AttributeError msg), imported false gs w))
           ["trace_async_begin"; "trace_async_instant"; "trace_async_end"].
Proof.
  split_and!.
  - intros. by apply trace_can_enable_reads_namespace.
  - apply Forall_forall. intros [n d] H. by apply fallback_bindings.
  - repeat constructor; try (vm_compute; reflexivity);
      intros; apply entry_unbound; vm_compute; reflexivity.
Qed.

(** ** The scoped [trace] and the decorator *)

Lemma fallback_trace_creates_generator depth name tkw gs (w : World) :
  tkw !! "name" = None →
  entry (S depth) "trace" [name] tkw (imported false gs w)
  = (Ok (VGenCtx (length gs)),
     State (shim_globals false) (gs ++ [GenCreated]) w).
Proof.
  intros Hname. fallback_entry def_trace.
  assert (∃ r, bind_arguments (signature_of def_trace) [name] tkw = inr r)
    as [[locals extra] ->]; [|reflexivity].
  unfold bind_arguments. cbn. rewrite Hname, andb_false_r. cbn. eauto.
Qed.

(** C3: with the engine missing, the callable that [traced(fn)] returns
    behaves on every call exactly as [fn] does (same result or exception,
    same effects), and [with trace(name, **kw): block] ends as [block]
    ends, with its value or its exception and in the state it left; of the
    tracing layer only the manager's own generator, now finished, remains.
    The block is any computation that leaves existing generators alone. *)
Theorem fallback_traced_and_trace_are_transparent :
  ∀ depth (fn name : value) (tkw : gmap string value)
    (block : M World value) gs (w : World),
    let st := imported false gs w in
    (∀ s g x, gens s !! g = Some x → gens (block s).2 !! g = Some x) →
    tkw !! "name" = None →
    (∃ fn', entry (S depth) "traced" [fn] ∅ st = (Ok fn', st)
            ∧ ∀ d args kw s, pycall d fn' args kw s = pycall d fn args kw s)
    ∧ (let inside := State (shim_globals false) (gs ++ [GenSuspended]) w in
       with_stmt (entry (S depth) "trace" [name] tkw) block st
       = ((block inside).1, set_gen (length gs) GenFinished (block inside).2)).
Proof.
  intros depth fn name tkw block gs w st Hframe Hname. split.
  - exists fn. split; [|done]. fallback_entry def_traced. reflexivity.
  - intros inside. unfold with_stmt, mbind. subst st.
    rewrite fallback_trace_creates_generator by done.
    unfold ctx_enter, gen_next at 1. cbn [gens].
    rewrite list_lookup_middle by done.
    replace (set_gen (length gs) GenSuspended
               (State (shim_globals false) (gs ++ [GenCreated]) w))
      with inside.
    2:{ unfold inside, set_gen. cbn [globals gens world]. f_equal.
        rewrite <- (Nat.add_0_r (length gs)). by rewrite insert_app_r. }
    assert (gens (block inside).2 !! length gs = Some GenSuspended) as Hg.
    { apply Hframe. unfold inside. cbn [gens]. by apply list_lookup_middle. }
    destruct (block inside) as [[v|e] st2] eqn:Hb; cbn [fst snd] in *.
    + unfold ctx_exit, gen_next, ret. rewrite Hg. reflexivity.
    + unfold ctx_exit, gen_throw, ret, raise. rewrite Hg.
      rewrite (bool_decide_eq_false_2 (e ≠ e)) by (intros H; by apply H).
      destruct (bool_decide (exn_cls e = StopIteration)); reflexivity.
Qed.

Lemma fallback_trace_begin_binds depth args kw gs (w : World) :
  entry (S depth) "trace_begin" args kw (imported false gs w)
  = match bind_arguments (signature_of def_trace_begin) args kw with
    | inl e => (Err e, imported false gs w)
    | inr _ => (Ok VNone, imported false gs w)
    end.
Proof.
  fallback_entry def_trace_begin.
  by destruct (bind_arguments _ args kw) as [e|[l x]].
Qed.

(** C7, as amended: with the engine missing, further keyword arguments
    never make [trace_begin] fail: a call it accepts it still accepts,
    returning [None] and changing nothing, with any keywords added that do
    not name its parameters.  [trace_end] declares no [**kwargs]: given a
    keyword that is not one of its parameters it raises [TypeError]. *)
Theorem fallback_keywords_begin_only :
  ∀ depth (args args' : list value) (kw extra kw' : gmap string value)
    (k : string) (v : value) gs (w : World),
    let st := imported false gs w in
    entry (S depth) "trace_begin" args kw st = (Ok VNone, st) →
    extra !! "self" = None →
    extra !! "name" = None →
    kw' !! k = Some v →
    k ≠ "self" →
    k ≠ "name" →
    entry (S depth) "trace_begin" args (extra ∪ kw) st = (Ok VNone, st)
    ∧ ∃ msg, entry (S depth) "trace_end" args' kw' st
             = (Err (Exn TypeError msg), st).
Proof.
  intros depth args args' kw extra kw' k v gs w st Hok Hs Hn Hk Hks Hkn. split.
  - revert Hok. subst st. rewrite !fallback_trace_begin_binds.
    destruct (bind_arguments _ args kw) as [e|r] eqn:Hb; [discriminate|].
    intros _.
    destruct (bind_arguments_more_keywords
                (signature_of def_trace_begin) args kw extra r) as [[l x] ->];
      try done.
    intros p. cbn. rewrite !elem_of_cons, elem_of_nil.
    intros [->|[->|[]]]; done.
  - subst st. fallback_entry def_trace_end.
    destruct (bind_arguments_unexpected_keyword
                (signature_of def_trace_end) args' kw' k v) as [msg ->];
      try done; [|eauto].
    cbn. rewrite !elem_of_cons, elem_of_nil. intros [->|[->|[]]]; done.
Qed.

(** ** With the engine installed: delegation *)

(** X3: with the engine installed, each of the eleven entry points taken
    from it is the engine's own function: a call through the shim passes
    the arguments on unchanged, gives the engine's result and the engine's
    effect on the world, and leaves the shim's namespace and generators as
    they were. *)
Theorem installed_entry_points_delegate :
  ∀ depth args kw gs (w : World),
    Forall (λ n : string,
              entry (S depth) n args kw (imported true gs w)
              = ((impl_call n args kw w).1,
                 imported true gs (impl_call n args kw w).2))
           impl_functions.
Proof.
  intros depth args kw gs w.
  assert (∀ n, shim_globals true !! n = Some (VImpl n) →
               entry (S depth) n args kw (imported true gs w)
               = ((impl_call n args kw w).1,
                  imported true gs (impl_call n args kw w).2)) as H.
  { intros n Hn. rewrite (entry_bound _ _ (VImpl n)) by exact Hn.
    cbn [call]. unfold in_engine. cbn [world globals gens imported].
    by destruct (impl_call n args kw w). }
  unfold impl_functions.
  repeat (constructor; [apply H; vm_compute; reflexivity|]). constructor.
Qed.

(** ** Arity *)

Lemma bind_arguments_positional sg args :
  (∃ r, bind_arguments sg args ∅ = inr r) ↔ length args = length (sig_params sg).
Proof.
  unfold bind_arguments.
  assert (existsb (λ p, bool_decide (is_Some ((∅ : gmap string value) !! p)))
            (take (length args) (sig_params sg)) = false) as ->.
  { apply not_true_iff_false. intros H. apply existsb_exists in H as (p & _ & H).
    apply bool_decide_eq_true_1 in H. rewrite lookup_empty in H. by destruct H. }
  rewrite map_to_list_empty. cbn [map existsb andb].
  case_bool_decide as Hlt.
  { split; [by intros [r ?]|lia]. }
  destruct (drop (length args) (sig_params sg)) as [|p rest] eqn:Hdrop.
  - split; [intros _|eauto].
    apply (f_equal length) in Hdrop. rewrite length_drop in Hdrop.
    cbn in Hdrop. lia.
  - cbn [existsb]. rewrite lookup_empty, bool_decide_eq_true_2 by done. cbn.
    split; [by intros [r ?]|]. intros Hlen.
    apply (f_equal length) in Hdrop. rewrite length_drop in Hdrop.
    cbn in Hdrop. lia.
Qed.

Lemma bind_arguments_type_error sg args kw e :
  bind_arguments sg args kw = inl e → exn_cls e = TypeError.
Proof.
  unfold bind_arguments.
  repeat (match goal with |- context [if ?c then _ else _] => destruct c end;
          [by intros [= <-]|]).
  discriminate.
Qed.

(** X4: with the engine missing and no keywords given, a function of the
    shim raises [TypeError] exactly when the number of positional
    arguments differs from the number of parameters its [def] declares:
    none for [trace_can_enable], [trace_enable], [trace_disable],
    [trace_is_enabled] and [trace_flush], one for [trace] and [traced], two
    for [trace_begin] and [trace_end]. *)
Theorem fallback_type_error_iff_wrong_arity :
  ∀ depth (d : shim_def) args gs (w : World),
    (∃ msg, (pycall (S depth) (VDef d) args ∅ (imported false gs w)).1
            = Err (Exn TypeError msg))
    ↔ length args ≠ arity d.
Proof.
  intros depth d args gs w. cbn [call]. unfold arity.
  pose proof (bind_arguments_positional (signature_of d) args) as Hb.
  destruct (bind_arguments (signature_of d) args ∅) as [e|[locals extra]] eqn:Hbind.
  - split.
    + intros _ Hlen. apply Hb in Hlen as [r Hr]. discriminate.
    + intros _. destruct e as [c msg].
      apply bind_arguments_type_error in Hbind. cbn in Hbind. subst c. eauto.
  - split; [|intros Hne; exfalso; apply Hne, Hb; eauto].
    intros [msg Hmsg]. exfalso.
    destruct d; cbn in Hmsg; try discriminate.
    + unfold traced in Hmsg. assert (length args = 1) as Hlen by (apply Hb; eauto).
      destruct args as [|a [|]]; try discriminate.
      revert Hbind. vm_compute. intros [= <- _]. revert Hmsg. vm_compute.
      discriminate.
Qed.

(** ** With the engine missing: nothing outside the shim is touched *)





(** ** More on the scoped [trace] *)

Lemma set_gen_lookup_ne g g' x (st : state World) :
  g ≠ g' → gens (set_gen g x st) !! g' = gens st !! g'.
Proof. intros Hne. unfold set_gen. cbn [gens]. by apply list_lookup_insert_ne. Qed.

Lemma with_stmt_as (expr block : M World value) :
  with_stmt expr block = with_as_stmt expr (λ _, block).
Proof. reflexivity. Qed.

(** What a [with] on the fallback [trace] does, given only that the block
    leaves the manager's generator suspended. *)
Lemma fallback_with_as depth name tkw (block : value → M World value) gs
    (w : World) :
  tkw !! "name" = None →
  gens (block VNone (imported false (gs ++ [GenSuspended]) w)).2 !! length gs
  = Some GenSuspended →
  with_as_stmt (entry (S depth) "trace" [name] tkw) block (imported false gs w)
  = ((block VNone (imported false (gs ++ [GenSuspended]) w)).1,
     set_gen (length gs) GenFinished
       (block VNone (imported false (gs ++ [GenSuspended]) w)).2).
Proof.
  intros Hname Hg. unfold with_as_stmt, mbind.
  rewrite fallback_trace_creates_generator by done.
  unfold ctx_enter, gen_next at 1. cbn [gens].
  rewrite list_lookup_middle by done.
  replace (set_gen (length gs) GenSuspended
             (State (shim_globals false) (gs ++ [GenCreated]) w))
    with (imported false (gs ++ [GenSuspended]) w).
  2:{ unfold imported, set_gen. cbn [globals gens world]. f_equal.
      rewrite <- (Nat.add_0_r (length gs)). by rewrite insert_app_r. }
  destruct (block VNone (imported false (gs ++ [GenSuspended]) w))
    as [[v|e] st2] eqn:Hb; cbn [fst snd] in *.
  - unfold ctx_exit, gen_next, ret. rewrite Hg. reflexivity.
  - unfold ctx_exit, gen_throw, ret, raise. rewrite Hg.
    rewrite (bool_decide_eq_false_2 (e ≠ e)) by (intros H; by apply H).
    destruct (bool_decide (exn_cls e = StopIteration)); reflexivity.
Qed.

(** X6: with the engine missing, [with trace(name, **kw) as var: block]
    binds [var] to [None]: the block runs on [None], from the state with
    the manager's generator suspended, and the statement ends as the block
    does, with that generator finished. *)
Theorem fallback_trace_as_binds_none :
  ∀ depth (name : value) (tkw : gmap string value)
    (block : value → M World value) gs (w : World),
    (∀ v s g x, gens s !! g = Some x → gens (block v s).2 !! g = Some x) →
    tkw !! "name" = None →
    let inside := imported false (gs ++ [GenSuspended]) w in
    with_as_stmt (entry (S depth) "trace" [name] tkw) block (imported false gs w)
    = ((block VNone inside).1,
       set_gen (length gs) GenFinished (block VNone inside).2).
Proof.
  intros depth name tkw block gs w Hframe Hname inside.
  apply fallback_with_as; [done|].
  apply Hframe. cbn [imported gens]. by apply list_lookup_middle.
Qed.


Lemma finish_generators_shift from n k (st : state World) :
  foldr (λ i s, set_gen (from + i) GenFinished s) st (seq (S k) n)
  = foldr (λ i s, set_gen (S from + i) GenFinished s) st (seq k n).
Proof.
  revert k. induction n as [|n IH]; intros k; [reflexivity|].
  cbn [seq foldr]. rewrite IH. f_equal. lia.
Qed.

Lemma finish_generators_S from n (st : state World) :
  finish_generators from (S n) st
  = set_gen from GenFinished (finish_generators (S from) n st).
Proof.
  unfold finish_generators. cbn [seq foldr].
  rewrite finish_generators_shift. f_equal. lia.
Qed.

Lemma finish_generators_lookup from n g (st : state World) :
  g < from → gens (finish_generators from n st) !! g = gens st !! g.
Proof.
  revert from. induction n as [|n IH]; intros from Hlt; [reflexivity|].
  rewrite finish_generators_S, set_gen_lookup_ne by lia. apply IH. lia.
Qed.

Lemma fallback_nested_trace depth names (block : M World value) gs (w : World) :
  (∀ s g x, gens s !! g = Some x → gens (block s).2 !! g = Some x) →
  nested_trace app_call impl_call (S depth) names block (imported false gs w)
  = ((block (imported false (gs ++ replicate (length names) GenSuspended) w)).1,
     finish_generators (length gs) (length names)
       (block (imported false (gs ++ replicate (length names) GenSuspended) w)).2).
Proof.
  intros Hframe. revert gs. induction names as [|n rest IH]; intros gs.
  - cbn. rewrite app_nil_r. by destruct (block _).
  - cbn [nested_trace length replicate].
    assert ((gs ++ [GenSuspended]) ++ replicate (length rest) GenSuspended
            = gs ++ GenSuspended :: replicate (length rest) GenSuspended) as Happ
      by (by rewrite <- app_assoc).
    assert (length (gs ++ [GenSuspended]) = S (length gs)) as Hlen
      by (rewrite length_app; cbn; lia).
    pose proof (IH (gs ++ [GenSuspended])) as Hin.
    rewrite Happ, Hlen in Hin.
    rewrite with_stmt_as, fallback_with_as; [|done|].
    + rewrite Hin. cbn [fst snd]. by rewrite finish_generators_S.
    + rewrite Hin. cbn [snd].
      rewrite finish_generators_lookup by lia.
      apply Hframe. cbn [imported gens]. by apply list_lookup_middle.
Qed.

(** X8: with the engine missing, scoped traces nest to any depth:
    [with trace(n1): with trace(n2): ... block] ends as [block] ends, with
    its value or exception and in the state it left, each scope's generator
    finished.  The block is any computation that leaves existing
    generators alone. *)
Theorem fallback_nested_traces_are_transparent :
  ∀ depth (names : list value) (block : M World value) gs (w : World),
    (∀ s g x, gens s !! g = Some x → gens (block s).2 !! g = Some x) →
    let inside :=
      imported false (gs ++ replicate (length names) GenSuspended) w in
    nested_trace app_call impl_call (S depth) names block (imported false gs w)
    = ((block inside).1,
       finish_generators (length gs) (length names) (block inside).2).
Proof.
  intros depth names block gs w Hframe inside.
  by apply fallback_nested_trace.
Qed.

(** X9: with the engine missing, [traced] returns its argument however
    often it is stacked and however the argument is passed: [n] stacked
    decorations of [fn] give [fn] itself, and so does [traced(fn=fn)];
    nothing is called and nothing changes. *)
Theorem fallback_stacked_traced_is_identity :
  ∀ depth n (fn : value) gs (w : World),
    decorate app_call impl_call (S depth) n fn (imported false gs w)
    = (Ok fn, imported false gs w)
    ∧ entry (S depth) "traced" [] {["fn" := fn]} (imported false gs w)
      = (Ok fn, imported false gs w).
Proof.
  intros depth n fn gs w. split.
  - induction n as [|n IH]; [reflexivity|].
    cbn [decorate]. unfold mbind. rewrite IH.
    fallback_entry def_traced. reflexivity.
  - fallback_entry def_traced. vm_compute. reflexivity.
Qed.

End ShimFacts.

(** * Two processes on one destination *)

Lemma interleave_only_left {A} (l : list A) : interleave l [] l.
Proof. induction l; constructor; done. Qed.

Lemma interleave_only_right {A} (l : list A) : interleave [] l l.
Proof. induction l; constructor; done. Qed.

Lemma interleave_app_left {A} (l1 l2 l q : list A) :
  interleave l1 l2 l → interleave (l1 ++ q) l2 (l ++ q).
Proof.
  induction 1; cbn; try (constructor; done). apply interleave_only_left.
Qed.

Lemma interleave_app_right {A} (l1 l2 l q : list A) :
  interleave l1 l2 l → interleave l1 (l2 ++ q) (l ++ q).
Proof.
  induction 1; cbn; try (constructor; done). apply interleave_only_right.
Qed.

Lemma interleave_length {A} (l1 l2 l : list A) :
  interleave l1 l2 l → length l = length l1 + length l2.
Proof. induction 1; cbn; lia. Qed.

Section FileWriterFacts.

Variable serialize : EventRecord → list byte.

Local Abbreviation batch := (serialize_batch serialize).

Lemma batch_app (l1 l2 : list EventRecord) :
  batch (l1 ++ l2) = batch l1 ++ batch l2.
Proof. apply flat_map_app. Qed.

Lemma invariant_initial : invariant serialize initial [] [].
Proof.
  exists [], [], [], [], []. split_and!; try done; constructor.
Qed.

Ltac close_case :=
  repeat match goal with
         | l : option proc |- _ => destruct l
         | p : proc |- _ => destruct p
         end;
  unfold proc_inv, file_inv in *; cbn in *;
  repeat match goal with
         | H : _ ∧ _ |- _ => destruct H
         | H : ∃ _, _ |- _ => destruct H
         | H : Some _ = Some _ |- _ => injection H as H
         | H : Writing _ = Writing _ |- _ => injection H as H
         end;
  subst; cbn in *;
  repeat match goal with
         | |- _ ∧ _ => split
         | |- context [match ?x with _ => _ end] => destruct x eqn:?
         | H : context [match ?x with _ => _ end] |- _ => destruct x eqn:?
         end;
  repeat match goal with
         | H : _ ∧ _ |- _ => destruct H
         | H : ∃ _, _ |- _ => destruct H
         end;
  subst; cbn in *;
  rewrite ?app_nil_r, ?batch_app, <- ?app_assoc in *;
  try done; try congruence; eauto;
  try (eexists; split; [reflexivity|];
       rewrite ?app_nil_r, ?batch_app, <- ?app_assoc; cbn; done).

Lemma step_invariant a s s' e1 e2 :
  invariant serialize s e1 e2 →
  step serialize a s = Some s' →
  invariant serialize s' (e1 ++ emitted Parent [a]) (e2 ++ emitted Child [a]).
Proof.
  intros (log & d1 & q1 & d2 & q2 & Hi & H1 & H2 & Hf) Hstep.
  destruct s as [f l [b1 pc1] [b2 pc2]].
  destruct a as [p r|p|p|p|p]; destruct p; cbn in Hstep.
  - injection Hstep as <-. exists log, d1, q1, d2, q2. close_case.
  - injection Hstep as <-. exists log, d1, q1, d2, q2. close_case.
  - destruct pc1; try discriminate. injection Hstep as <-.
    exists log, d1, b1, d2, q2. close_case.
  - destruct pc2; try discriminate. injection Hstep as <-.
    exists log, d1, q1, d2, b2. close_case.
  - destruct pc1; try discriminate. destruct l; try discriminate.
    injection Hstep as <-.
    exists (log ++ q1), (d1 ++ q1), [], d2, q2.
    split; [by apply interleave_app_left|]. close_case.
  - destruct pc2; try discriminate. destruct l; try discriminate.
    injection Hstep as <-.
    exists (log ++ q2), d1, q1, (d2 ++ q2), [].
    split; [by apply interleave_app_right|]. close_case.
  - destruct pc1 as [| |[|b bs]]; try discriminate. injection Hstep as <-.
    exists log, d1, q1, d2, q2. close_case.
  - destruct pc2 as [| |[|b bs]]; try discriminate. injection Hstep as <-.
    exists log, d1, q1, d2, q2. close_case.
  - destruct pc1 as [| |[|b bs]]; try discriminate. injection Hstep as <-.
    exists log, d1, q1, d2, q2. close_case.
  - destruct pc2 as [| |[|b bs]]; try discriminate. injection Hstep as <-.
    exists log, d1, q1, d2, q2. close_case.
Qed.

Lemma emitted_cons p a acts :
  emitted p (a :: acts) = emitted p [a] ++ emitted p acts.
Proof. destruct a; cbn; try done. by destruct (bool_decide _). Qed.

Lemma run_invariant acts s s' e1 e2 :
  invariant serialize s e1 e2 →
  run serialize acts s = Some s' →
  invariant serialize s' (e1 ++ emitted Parent acts) (e2 ++ emitted Child acts).
Proof.
  revert s e1 e2. induction acts as [|a acts IH]; intros s e1 e2 Hinv Hrun.
  - injection Hrun as <-. cbn. by rewrite !app_nil_r.
  - cbn in Hrun. destruct (step serialize a s) as [s1|] eqn:Hstep; [|done].
    rewrite (emitted_cons Parent), (emitted_cons Child), !app_assoc.
    apply (IH s1); [|done]. by apply step_invariant with s.
Qed.

(** Once both processes have flushed, the file is the serialization of an
    interleaving of what they emitted. *)
Lemma flushed_file acts s :
  run serialize acts initial = Some s →
  flushed s →
  ∃ log, file s = batch log
         ∧ interleave (emitted Parent acts) (emitted Child acts) log.
Proof.
  intros Hrun [Hp Hc].
  destruct (run_invariant acts initial s [] [] invariant_initial Hrun)
    as (log & d1 & q1 & d2 & q2 & Hi & [He1 H1] & [He2 H2] & Hf).
  destruct s as [f l pp cc]. unfold file_inv in Hf. cbn in *. subst pp cc.
  cbn in *. destruct H1 as [-> Hl1], H2 as [-> Hl2].
  rewrite app_nil_r in He1, He2. subst d1 d2.
  exists log. split; [|done].
  destruct l as [[|]|]; [| |done].
  - destruct Hf as (bs & Hpc & _). discriminate.
  - destruct Hf as (bs & Hpc & _). discriminate.
Qed.

(** In a self-delimiting format a file can be read as records in one way
    only. *)
Lemma serialize_nonempty (r : EventRecord) :
  self_delimiting serialize → serialize r ≠ [].
Proof.
  intros Hsd Hnil.
  pose (r' := {| er_name := String "x"%char (er_name r);
                 er_phase := er_phase r; er_timestamp := er_timestamp r;
                 er_thread_id := er_thread_id r;
                 er_process_id := er_process_id r; er_args := er_args r |}).
  destruct (Hsd r r' (serialize r') []) as [Heq _].
  - by rewrite Hnil, app_nil_r.
  - assert (String.length (er_name r) = String.length (er_name r')) as Hlen
      by (by rewrite <- Heq).
    cbn in Hlen. lia.
Qed.

Lemma batch_unique (l l' : list EventRecord) :
  self_delimiting serialize → batch l = batch l' → l = l'.
Proof.
  intros Hsd. revert l'.
  induction l as [|r l IH]; intros [|r' l'] H; cbn in H.
  - done.
  - symmetry in H. apply app_eq_nil in H as [H _].
    by apply serialize_nonempty in H.
  - apply app_eq_nil in H as [H _]. by apply serialize_nonempty in H.
  - apply Hsd in H as [-> H]. f_equal. by apply IH.
Qed.

(** C8: two processes share one destination; each emits [N] records and
    the schedule, whatever it is, ends with both flushed.  Then the file
    is exactly the serialization of [2 * N] records, each whole and none
    split by another: the records of the two processes interleaved, each
    process's in its own order.  In a self-delimiting format the file
    reads as these records and no others.  The engine is modelled from the
    specification. *)
Theorem shared_destination_holds_all_records :
  ∀ (acts : list action) (s : system) (N : nat),
    self_delimiting serialize →
    run serialize acts initial = Some s →
    flushed s →
    length (emitted Parent acts) = N →
    length (emitted Child acts) = N →
    ∃ log, file s = batch log
           ∧ length log = 2 * N
           ∧ interleave (emitted Parent acts) (emitted Child acts) log
           ∧ ∀ log', file s = batch log' → log' = log.
Proof.
  intros acts s N Hsd Hrun Hfl Hn1 Hn2.
  destruct (flushed_file acts s Hrun Hfl) as (log & Hfile & Hi).
  exists log. split_and!; try done.
  - apply interleave_length in Hi. lia.
  - intros log' H'. apply batch_unique; [done|]. by rewrite <- H', Hfile.
Qed.

End FileWriterFacts.

(** ** The tagged format is self-delimiting *)

Lemma wire_positive_sd : self_delimiting wire_positive.
Proof.
  intros a. induction a as [a IH|a IH|]; intros [b|b|] s t H; cbn in H;
    try discriminate; injection H as H;
    try (apply IH in H as [-> ->]); by subst.
Qed.

Lemma wire_Z_sd : self_delimiting wire_Z.
Proof.
  intros [|a|a] [|b|b] s t H; cbn in H; try discriminate; injection H as H;
    try (apply wire_positive_sd in H as [-> ->]); by subst.
Qed.

Lemma wire_string_sd : self_delimiting wire_string.
Proof.
  intros a. induction a as [|c a IH]; intros [|c' b] s t H; cbn in H;
    try discriminate.
  - injection H as H. by subst.
  - injection H as Hc H. apply IH in H as [-> ->].
    apply (f_equal ascii_of_byte) in Hc.
    rewrite !ascii_of_byte_of_ascii in Hc. by subst.
Qed.

Lemma wire_phase_sd : self_delimiting wire_phase.
Proof.
  intros [] [] s t H; cbn in H; try discriminate; injection H as H; by subst.
Qed.

Lemma wire_scalar_sd : self_delimiting wire_scalar.
Proof.
  intros [|[]|n|x] [|[]|m|y] s t H; cbn in H; try discriminate;
    injection H as H; try (by subst).
  - by apply wire_Z_sd in H as [-> ->].
  - by apply wire_string_sd in H as [-> ->].
Qed.

Lemma wire_args_sd : self_delimiting wire_args.
Proof.
  intros a. induction a as [|[k v] a IH]; intros [|[k' v'] b] s t H;
    cbn in H; try discriminate; injection H as H.
  - by subst.
  - rewrite <- !app_assoc in H.
    apply wire_string_sd in H as [-> H].
    apply wire_scalar_sd in H as [-> H].
    by apply IH in H as [-> ->].
Qed.

Lemma wire_record_sd : self_delimiting wire_record.
Proof.
  intros [n1 p1 t1 i1 j1 a1] [n2 p2 t2 i2 j2 a2] s t H.
  unfold wire_record in H. cbn in H. rewrite <- !app_assoc in H.
  apply wire_string_sd in H as [-> H].
  apply wire_phase_sd in H as [-> H].
  apply wire_Z_sd in H as [-> H].
  apply wire_Z_sd in H as [-> H].
  apply wire_Z_sd in H as [-> H].
  by apply wire_args_sd in H as [-> ->].
Qed.

(** * The import under every outcome *)

Lemma module_body_is_outcome (installed : bool) :
  module_body installed
  = module_body_outcome (import_trace_event_impl installed).
Proof. reflexivity. Qed.



(** X10: every name the fallback branch binds, apart from the module
    [contextlib] it imports for itself, is bound by the engine branch as
    well: a program whose names resolve against the fallback resolves
    against the engine. *)
Theorem fallback_names_are_engine_names :
  ∀ n : string,
    is_Some (shim_globals false !! n) →
    n ≠ "contextlib" →
    is_Some (shim_globals true !! n).
Proof.
  intros n [v Hv] Hne.
  assert (forallb (λ kv : string * value,
                     bool_decide (kv.1 = "contextlib")
                     || bool_decide (is_Some (shim_globals true !! kv.1)))
            (map_to_list (shim_globals false)) = true) as Hall
    by (vm_compute; reflexivity).
  rewrite forallb_forall in Hall.
  pose proof (Hall (n, v)
                (proj1 (list_elem_of_In _ _)
                   (proj2 (elem_of_map_to_list _ _ _) Hv))) as H.
  cbn [fst] in H. apply orb_true_iff in H as [H|H].
  - apply bool_decide_eq_true_1 in H. done.
  - by apply bool_decide_eq_true_1 in H.
Qed.

(** * The properties at concrete inputs *)

(** C7, the call that refutes the claim as stated: with the engine
    missing, [trace_end("timer", name="work", label=1)] binds both declared
    parameters and still raises [TypeError], for the keyword [label]. *)
Lemma fallback_trace_end_rejects_label :
  call_entry counter_app quiet_engine 1 "trace_end" [VStr "timer"]
    (<["label" := VInt 1]> {["name" := VStr "work"]}) (imported false [] 0)
  = (Err (Exn TypeError "trace_end() got an unexpected keyword argument"),
     imported false [] 0).
Proof. vm_compute. reflexivity. Qed.

(** [trace_begin("timer", "work", label=1)] is accepted, and
    [trace_end("timer", "work", label=1)] is rejected. *)
Lemma fallback_keywords_begin_only_witness :
  call_entry counter_app quiet_engine 1 "trace_begin"
    [VStr "timer"; VStr "work"] ({["label" := VInt 1]} ∪ ∅) (imported false [] 0)
  = (Ok VNone, imported false [] 0)
  ∧ ∃ msg,
      call_entry counter_app quiet_engine 1 "trace_end"
        [VStr "timer"; VStr "work"] {["label" := VInt 1]} (imported false [] 0)
      = (Err (Exn TypeError msg), imported false [] 0).
Proof.
  apply (fallback_keywords_begin_only nat counter_app quiet_engine 0
           [VStr "timer"; VStr "work"] [VStr "timer"; VStr "work"]
           ∅ {["label" := VInt 1]} {["label" := VInt 1]}
           "label" (VInt 1) [] 0).
  - vm_compute. reflexivity.
  - vm_compute. reflexivity.
  - vm_compute. reflexivity.
  - vm_compute. reflexivity.
  - discriminate.
  - discriminate.
Defined.

(** [traced(counter)] is [counter], and [with trace("parse", lines=3):
    counter()] with the world at 5 gives what [counter()] gives: 5, and
    the world at 6. *)
Lemma fallback_traced_and_trace_witness :
  (∃ fn',
      call_entry counter_app quiet_engine 1 "traced" [VObj 0] ∅ (imported false [] 5)
      = (Ok fn', imported false [] 5)
      ∧ ∀ d args kw s,
          call counter_app quiet_engine d fn' args kw s
          = call counter_app quiet_engine d (VObj 0) args kw s)
  ∧ with_stmt
      (call_entry counter_app quiet_engine 1 "trace" [VStr "parse"]
         {["lines" := VInt 3]})
      (call counter_app quiet_engine 2 (VObj 0) [] ∅)
      (imported false [] 5)
    = (Ok (VInt 5), State (shim_globals false) [GenFinished] 6).
Proof.
  apply (fallback_traced_and_trace_are_transparent nat counter_app quiet_engine
           0 (VObj 0) (VStr "parse") {["lines" := VInt 3]}
           (call counter_app quiet_engine 2 (VObj 0) [] ∅) [] 5).
  - intros s g x H. exact H.
  - vm_compute. reflexivity.
Defined.

(** The sample schedule: one record from each process, the parent's
    written first, the child's after it. *)
Lemma shared_destination_witness :
  ∃ log,
    wire_record work_begin ++ wire_record work_end
    = serialize_batch wire_record log
    ∧ length log = 2 * 1
    ∧ interleave [work_begin] [work_end] log
    ∧ ∀ log',
        wire_record work_begin ++ wire_record work_end
        = serialize_batch wire_record log' → log' = log.
Proof.
  apply (shared_destination_holds_all_records wire_record sample_schedule
           (System (wire_record work_begin ++ wire_record work_end) None
                   (Process [] Idle) (Process [] Idle)) 1).
  - exact wire_record_sd.
  - vm_compute. reflexivity.
  - split; reflexivity.
  - reflexivity.
  - reflexivity.
Defined.


(** [traced] is bound in both namespaces. *)
Lemma fallback_names_witness : is_Some (shim_globals true !! "traced").
Proof.
  apply (fallback_names_are_engine_names "traced").
  - vm_compute. eexists. reflexivity.
  - discriminate.
Defined.

(** [with trace("parse") as t: counter(t)]: the block runs on [None]. *)
Lemma fallback_trace_as_witness :
  with_as_stmt
    (call_entry counter_app quiet_engine 1 "trace" [VStr "parse"] ∅)
    (λ t, call counter_app quiet_engine 2 (VObj 0) [t] ∅)
    (imported false [] 5)
  = (Ok (VInt 5), State (shim_globals false) [GenFinished] 6).
Proof.
  apply (fallback_trace_as_binds_none nat counter_app quiet_engine 0
           (VStr "parse") ∅
           (λ t, call counter_app quiet_engine 2 (VObj 0) [t] ∅) [] 5).
  - intros v s g x H. exact H.
  - vm_compute. reflexivity.
Defined.


(** Two scopes around [counter()]. *)
Lemma fallback_nested_traces_witness :
  nested_trace counter_app quiet_engine 1 [VStr "outer"; VStr "inner"]
    (call counter_app quiet_engine 2 (VObj 0) [] ∅) (imported false [] 5)
  = (Ok (VInt 5), State (shim_globals false) [GenFinished; GenFinished] 6).
Proof.
  apply (fallback_nested_traces_are_transparent nat counter_app quiet_engine 0
           [VStr "outer"; VStr "inner"]
           (call counter_app quiet_engine 2 (VObj 0) [] ∅) [] 5).
  intros s g x H. exact H.
Defined.
